(** * Email viewer: catalog build and navigation state  (src/utils.py)

    A shallow embedding of [load_email_files] and of the [EmailViewer]
    class, followed by the properties of the catalog (numeric ordering of
    the file lists) and of the navigation handlers (mode switch, random
    load, indexed load, previous, next).

    Python values are modelled as follows.
    - a Python integer is a [Z]; [len] returns a [Z].
    - [str] is [string]: the bytes of the text in UTF-8.
    - a [pathlib.Path] is the list of its parts.
    - [self.current_mode], which only ever holds ['ham'] or ['spam'], is
      the enumeration [mode].
    - [self.current_index] is an [option Z] ([None] is Python's [None]).
    - a widget attribute is a field of the record [EmailViewer]; the
      [Output] widget is the list of the lines printed into it.
    - an exception that leaves a handler is the result [Raised], which
      keeps the object as the handler left it (Python mutates in place).
    - the file system is a tree of entries, passed to every function that
      touches the disk; [random.randint] draws from a number supplied by
      the caller.
    - the builtin [int], whose reading of a [str] depends on the Unicode
      tables and the digit limit of the interpreter, is a parameter of
      [sort_key] and of everything built on it.  [int_ascii] is its
      restriction to ASCII text and serves the worked examples. *)

From Stdlib Require Import ZArith List String Ascii Bool Lia.
From Stdlib Require Import Sorted Permutation DecimalString.
Import ListNotations.

Local Open Scope string_scope.
Local Open Scope Z_scope.

Set Warnings "-register-all".

(** ** Python builtins used by the module *)

Module Py.

(** The exceptions that occur, each with the text [str(e)] gives. *)
Inductive exn : Type :=
| ValueError (msg : string)
| IndexError (msg : string)
| OSError (msg : string).

Definition str_exn (e : exn) : string :=
  match e with
  | ValueError m => m
  | IndexError m => m
  | OSError m => m
  end.

Definition len {A : Type} (l : list A) : Z := Z.of_nat (List.length l).

(** [str(n)] for an [int]. *)
Definition str_int (n : Z) : string := NilZero.string_of_int (Z.to_int n).

(** [s.upper()] on ASCII letters. *)
Definition upper_ascii (c : ascii) : ascii :=
  let n := nat_of_ascii c in
  if ((97 <=? n) && (n <=? 122))%nat then ascii_of_nat (n - 32) else c.

Fixpoint upper (s : string) : string :=
  match s with
  | EmptyString => EmptyString
  | String c s' => String (upper_ascii c) (upper s')
  end.

(** ['c' * n] *)
Fixpoint str_mul (c : ascii) (n : nat) : string :=
  match n with
  | O => EmptyString
  | S n' => String c (str_mul c n')
  end.

(** *** [int(s)] on a [str] of ASCII characters: surrounding white space
    is stripped, then an optional sign, then decimal digits in which single
    underscores may separate digits; a literal of more than 4300 digits is
    refused.  [None] stands for [ValueError].  Text outside ASCII is out of
    its domain (there [int] also reads the decimal digits and blanks of
    other scripts): the properties of the catalog do not use this function
    but take [int] as a parameter. *)

Definition is_space (c : ascii) : bool :=
  let n := nat_of_ascii c in
  (((9 <=? n) && (n <=? 13)) || (n =? 32))%nat.

Definition is_digit (c : ascii) : bool :=
  let n := nat_of_ascii c in
  ((48 <=? n) && (n <=? 57))%nat.

Definition digit_value (c : ascii) : Z := Z.of_nat (nat_of_ascii c - 48).

Fixpoint lstrip (l : list ascii) : list ascii :=
  match l with
  | c :: l' => if is_space c then lstrip l' else l
  | [] => []
  end.

Definition strip (l : list ascii) : list ascii :=
  rev (lstrip (rev (lstrip l))).

(** [after_digit] tells whether the previous character was a digit: an
    underscore is only legal there, and the literal must end there. *)
Fixpoint digits (acc : Z) (after_digit : bool) (l : list ascii) : option Z :=
  match l with
  | [] => if after_digit then Some acc else None
  | c :: l' =>
      if is_digit c then digits (10 * acc + digit_value c) true l'
      else if Ascii.eqb c "_" && after_digit then digits acc false l'
      else None
  end.

(** [sys.get_int_max_str_digits()] *)
Definition max_str_digits : Z := 4300.

Definition int_ascii (s : string) : option Z :=
  let l := strip (list_ascii_of_string s) in
  if max_str_digits <? len (filter is_digit l) then None
  else
    match l with
    | c :: l' =>
        if Ascii.eqb c "-" then option_map Z.opp (digits 0 false l')
        else if Ascii.eqb c "+" then digits 0 false l'
        else digits 0 false (c :: l')
    | [] => None
    end.

(** *** Sort keys: an [int], or [float('inf')]. *)
Inductive key : Type :=
| Int (n : Z)
| Inf.

(** Python's [<] between two such keys. *)
Definition key_lt (a b : key) : bool :=
  match a, b with
  | Int x, Int y => x <? y
  | Int _, Inf => true
  | Inf, _ => false
  end.

(** *** [sorted(l, key=f)]: a stable sort that compares keys with [<]
    only.  An element is inserted in front of the already sorted later
    elements, behind exactly those whose key is strictly smaller. *)
Section Sorted.
Context {A : Type} (f : A -> key).

Fixpoint insert (x : A) (l : list A) : list A :=
  match l with
  | [] => [x]
  | y :: l' => if key_lt (f y) (f x) then y :: insert x l' else x :: l
  end.

Fixpoint sorted (l : list A) : list A :=
  match l with
  | [] => []
  | x :: l' => insert x (sorted l')
  end.
End Sorted.

(** *** [random.randint(a, b)]: [ValueError] on an empty range, else the
    element of [[a, b]] selected by the draw [rnd]. *)
Definition randint (rnd : Z) (a b : Z) : exn + Z :=
  if b <? a then inl (ValueError "empty range for randrange()")
  else inr (a + rnd mod (b - a + 1)).

End Py.

(** ** The part of [pathlib] and of the file system the module uses *)

Module Pathlib.

(** A path is the list of its parts: [Path('data/ham')] is
    [["data"; "ham"]]. *)
Definition Path : Type := list string.

(** [path.name]: the last part. *)
Definition name (p : Path) : string := last p "".

(** [str(path)] *)
Definition str_path (p : Path) : string := String.concat "/" p.

(** [s.rfind(c)], [None] for [-1]. *)
Fixpoint rfind (c : ascii) (s : string) : option nat :=
  match s with
  | EmptyString => None
  | String a s' =>
      match rfind c s' with
      | Some i => Some (S i)
      | None => if Ascii.eqb a c then Some O else None
      end
  end.

(** [path.stem]: the name without its last suffix; a dot that starts or
    ends the name does not begin a suffix. *)
Definition stem (p : Path) : string :=
  let n := name p in
  match rfind "." n with
  | Some i =>
      if ((0 <? i) && (i <? String.length n - 1))%nat
      then substring 0 i n else n
  | None => n
  end.

(** An entry of a directory.  A file holds what [open(..).read()] gives:
    its text (already decoded, undecodable bytes dropped), or the
    description of the error the read fails with. *)
Inductive entry : Type :=
| File (n : string) (data : string + string)
| Dir (n : string) (entries : list entry)
| Locked (n : string).   (* a directory the process may not enter or list *)

Definition entry_name (e : entry) : string :=
  match e with
  | File n _ => n
  | Dir n _ => n
  | Locked n => n
  end.

(** The file system: the directory relative paths start from. *)
Definition filesystem : Type := entry.

(** What [os.stat] answers for a path: the entry; that there is none
    ([ENOENT], or [ENOTDIR] when the way leads through a file); or
    another error, which [pathlib] passes on to its caller.  The texts are
    those of the [OSError], without the path. *)
Inductive stat_result : Type :=
| Found (e : entry)
| Absent (msg : string)
| Failed (msg : string).

(** The longest name of an entry and the longest path, in bytes (the
    limits of Linux). *)
Definition NAME_MAX : Z := 255.
Definition PATH_MAX : Z := 4096.

Fixpoint resolve (e : entry) (p : Path) : stat_result :=
  match p with
  | [] => Found e
  | n :: p' =>
      match e with
      | File _ _ => Absent "[Errno 20] Not a directory"
      | Locked _ => Failed "[Errno 13] Permission denied"
      | Dir _ es =>
          if NAME_MAX <? Z.of_nat (String.length n)
          then Failed "[Errno 36] File name too long"
          else
            match find (fun c => String.eqb (entry_name c) n) es with
            | Some c => resolve c p'
            | None => Absent "[Errno 2] No such file or directory"
            end
      end
  end.

Definition stat (fs : filesystem) (p : Path) : stat_result :=
  if PATH_MAX <=? Z.of_nat (String.length (str_path p))
  then Failed "[Errno 36] File name too long"
  else resolve fs p.

(** The [OSError] for a path. *)
Definition os_error (msg : string) (p : Path) : Py.exn :=
  Py.OSError (msg ++ ": '" ++ str_path p ++ "'").

(** Whether a name matches the pattern ['*.txt']. *)
Definition match_txt (n : string) : bool :=
  let k := String.length n in
  ((4 <=? k)%nat && String.eqb (substring (k - 4) 4 n) ".txt").

(** The recursive walk of [rglob('*.txt')] below the directory [e] whose
    path is [here]: the matching entries of the directory itself, then
    the walk of each sub-directory in listing order.  A directory that may
    not be listed is passed over. *)
Fixpoint walk (here : Path) (e : entry) {struct e} : list Path :=
  match e with
  | File _ _ => []
  | Locked _ => []
  | Dir _ es =>
      (map (fun c => here ++ [entry_name c])
           (filter (fun c => match_txt (entry_name c)) es)
       ++ flat_map (fun c => walk (here ++ [entry_name c]) c) es)%list
  end.

(** [list(p.rglob('*.txt'))].  [rglob] first asks whether [p] is a
    directory: a path that does not exist, or that is no directory, yields
    nothing, and any other error of [os.stat] (no permission to search a
    directory on the way, a name that is too long) is raised. *)
Definition rglob_txt (fs : filesystem) (p : Path) : Py.exn + list Path :=
  match stat fs p with
  | Found e => inr (walk p e)
  | Absent _ => inr []
  | Failed msg => inl (os_error msg p)
  end.

(** [open(p, 'r', encoding='utf-8', errors='ignore')] followed by
    [f.read()]. *)
Definition open_read (fs : filesystem) (p : Path) : Py.exn + string :=
  match stat fs p with
  | Found (File _ (inl content)) => inr content
  | Found (File _ (inr msg)) => inl (Py.OSError msg)
  | Found (Dir _ _) => inl (os_error "[Errno 21] Is a directory" p)
  | Found (Locked _) => inl (os_error "[Errno 13] Permission denied" p)
  | Absent msg => inl (os_error msg p)
  | Failed msg => inl (os_error msg p)
  end.

End Pathlib.

Import Py Pathlib.

(** ** [load_email_files] *)

Section Catalog.

(** The builtin [int] on a [str]: the integer, or [None] for
    [ValueError]. *)
Variable int : string -> option Z.

(** The local function [sort_key]. *)
Definition sort_key (path : Path) : key :=
  match int (stem path) with
  | Some n => Int n
  | None => Inf
  end.

(** An error of either listing leaves the function as it is raised, the
    ham directory being listed first. *)
Definition load_email_files (fs : filesystem) (ham_dir spam_dir : Path)
  : exn + (list Path * list Path) :=
  match rglob_txt fs ham_dir with
  | inl e => inl e
  | inr ham_files_raw =>
      match rglob_txt fs spam_dir with
      | inl e => inl e
      | inr spam_files_raw =>
          let ham_files := sorted sort_key ham_files_raw in
          let spam_files := sorted sort_key spam_files_raw in
          inr (ham_files, spam_files)
      end
  end.

End Catalog.

(** ** The class [EmailViewer] *)

Inductive mode : Type :=
| ham
| spam.

Definition mode_eqb (a b : mode) : bool :=
  match a, b with
  | ham, ham => true
  | spam, spam => true
  | _, _ => false
  end.

(** The string the mode stands for. *)
Definition mode_str (m : mode) : string :=
  match m with
  | ham => "ham"
  | spam => "spam"
  end.

(** The attributes of the object that its methods read or assign.  The
    load button, the layout and the click wiring never change and are left
    out. *)
Record EmailViewer : Type := mkEmailViewer {
  ham_files : list Path;
  spam_files : list Path;
  current_mode : mode;
  current_index : option Z;
  output : list string;              (* lines shown in [self.output] *)
  info_label : string;               (* [self.info_label.value] *)
  mode_button_description : string;  (* [self.mode_button.description] *)
  mode_button_style : string;        (* [self.mode_button.button_style] *)
  prev_button_disabled : bool;       (* [self.prev_button.disabled] *)
  next_button_disabled : bool        (* [self.next_button.disabled] *)
}.

(** What a handler call ends with: it returns, or an exception leaves
    it.  Either way the object is as the call left it. *)
Inductive result : Type :=
| Returned (self : EmailViewer)
| Raised (e : exn) (self : EmailViewer).

Definition state_of (r : result) : EmailViewer :=
  match r with
  | Returned s => s
  | Raised _ s => s
  end.

(** Attribute assignments. *)
Definition set_current_mode (v : mode) (s : EmailViewer) : EmailViewer :=
  mkEmailViewer (ham_files s) (spam_files s) v (current_index s) (output s)
    (info_label s) (mode_button_description s) (mode_button_style s)
    (prev_button_disabled s) (next_button_disabled s).

Definition set_current_index (v : option Z) (s : EmailViewer) : EmailViewer :=
  mkEmailViewer (ham_files s) (spam_files s) (current_mode s) v (output s)
    (info_label s) (mode_button_description s) (mode_button_style s)
    (prev_button_disabled s) (next_button_disabled s).

Definition set_output (v : list string) (s : EmailViewer) : EmailViewer :=
  mkEmailViewer (ham_files s) (spam_files s) (current_mode s)
    (current_index s) v
    (info_label s) (mode_button_description s) (mode_button_style s)
    (prev_button_disabled s) (next_button_disabled s).

Definition set_info_label (v : string) (s : EmailViewer) : EmailViewer :=
  mkEmailViewer (ham_files s) (spam_files s) (current_mode s)
    (current_index s) (output s)
    v (mode_button_description s) (mode_button_style s)
    (prev_button_disabled s) (next_button_disabled s).

Definition set_mode_button (description style : string) (s : EmailViewer)
  : EmailViewer :=
  mkEmailViewer (ham_files s) (spam_files s) (current_mode s)
    (current_index s) (output s)
    (info_label s) description style
    (prev_button_disabled s) (next_button_disabled s).

Definition set_prev_button_disabled (v : bool) (s : EmailViewer)
  : EmailViewer :=
  mkEmailViewer (ham_files s) (spam_files s) (current_mode s)
    (current_index s) (output s)
    (info_label s) (mode_button_description s) (mode_button_style s)
    v (next_button_disabled s).

Definition set_next_button_disabled (v : bool) (s : EmailViewer)
  : EmailViewer :=
  mkEmailViewer (ham_files s) (spam_files s) (current_mode s)
    (current_index s) (output s)
    (info_label s) (mode_button_description s) (mode_button_style s)
    (prev_button_disabled s) v.

(** [self.output.clear_output(wait=True)] and [print] inside
    [with self.output].  With [wait=True] the area is cleared when the next
    line arrives; every path prints after clearing, so clearing at once
    shows the same lines. *)
Definition clear_output (s : EmailViewer) : EmailViewer := set_output [] s.

Definition print (line : string) (s : EmailViewer) : EmailViewer :=
  set_output (output s ++ [line])%list s.

(** The two texts the info label takes. *)
Definition idle_label (color shown : string) : string :=
  "<b>Mode: <span style='color:" ++ color ++ "'>" ++ shown
  ++ "</span> | Click the button to load a random email</b>".

Definition email_label (type_color : string) (email_type : mode)
    (index total : Z) (file_name : string) : string :=
  "<b>Mode: <span style='color:" ++ type_color ++ "'>"
  ++ upper (mode_str email_type) ++ "</span> | "
  ++ "Email " ++ str_int (index + 1) ++ "/" ++ str_int total
  ++ " | <code>" ++ file_name ++ "</code></b>".

Definition __init__ (ham_files spam_files : list Path) : EmailViewer :=
  {| ham_files := ham_files;
     spam_files := spam_files;
     current_mode := ham;
     current_index := None;
     output := [];
     info_label := idle_label "green" "HAM";
     mode_button_description := "Switch to SPAM";
     mode_button_style := "info";
     prev_button_disabled := true;
     next_button_disabled := true |}.

Definition _get_current_file_list (self : EmailViewer) : list Path :=
  if mode_eqb (current_mode self) ham then ham_files self
  else spam_files self.

Definition _load_email_by_index (fs : filesystem) (index : Z)
    (self : EmailViewer) : result :=
  let file_list := _get_current_file_list self in
  if (index <? 0) || (index >=? len file_list) then Returned self
  else
    let self := set_current_index (Some index) self in
    match nth_error file_list (Z.to_nat index) with
    | None => Raised (IndexError "list index out of range") self
    | Some file_path =>
        let email_type := current_mode self in
        let type_color :=
          if mode_eqb email_type ham then "green" else "red" in
        let self := clear_output self in
        (* try: *)
        match open_read fs file_path with
        | inr content =>
            let file_name := name file_path in
            let total := len file_list in
            let self :=
              set_info_label
                (email_label type_color email_type index total file_name)
                self in
            let self := set_prev_button_disabled (index =? 0) self in
            let self :=
              set_next_button_disabled (index =? len file_list - 1) self in
            let self :=
              print ("Email Type: " ++ upper (mode_str email_type)) self in
            let self :=
              print ("File: " ++ file_name ++ " (Index: "
                     ++ str_int (index + 1) ++ "/" ++ str_int total ++ ")")
                self in
            let self := print (str_mul "=" 60) self in
            let self := print content self in
            let self := print (str_mul "=" 60) self in
            Returned self
        (* except Exception as e: *)
        | inl e => Returned (print ("Error reading file: " ++ str_exn e) self)
        end
    end.

Definition _toggle_mode (self : EmailViewer) : result :=
  let self :=
    if mode_eqb (current_mode self) ham then
      let self := set_current_mode spam self in
      let self := set_mode_button "Switch to HAM" "warning" self in
      set_info_label (idle_label "red" "SPAM") self
    else
      let self := set_current_mode ham self in
      let self := set_mode_button "Switch to SPAM" "info" self in
      set_info_label (idle_label "green" "HAM") self in
  let self := set_current_index None self in
  let self := set_prev_button_disabled true self in
  let self := set_next_button_disabled true self in
  Returned self.

Definition _load_random_email (fs : filesystem) (rnd : Z)
    (self : EmailViewer) : result :=
  let file_list := _get_current_file_list self in
  match randint rnd 0 (len file_list - 1) with
  | inl e => Raised e self
  | inr random_index => _load_email_by_index fs random_index self
  end.

Definition _load_previous_email (fs : filesystem) (self : EmailViewer)
  : result :=
  match current_index self with
  | Some i =>
      if i >? 0 then _load_email_by_index fs (i - 1) self
      else Returned self
  | None => Returned self
  end.

Definition _load_next_email (fs : filesystem) (self : EmailViewer)
  : result :=
  let file_list := _get_current_file_list self in
  match current_index self with
  | Some i =>
      if i <? len file_list - 1 then _load_email_by_index fs (i + 1) self
      else Returned self
  | None => Returned self
  end.

(** ** The controller as its presentation layer sees it *)

(** The two navigation flags are the enabled states of the buttons. *)
Definition has_previous (s : EmailViewer) : bool :=
  negb (prev_button_disabled s).

Definition has_next (s : EmailViewer) : bool :=
  negb (next_button_disabled s).

(** The operations of the controller, each with what it draws from
    outside: the number [random.randint] picks, the requested index. *)
Inductive operation : Type :=
| SwitchCategory
| LoadRandom (rnd : Z)
| LoadAt (index : Z)
| LoadPrevious
| LoadNext.

Definition run (fs : filesystem) (o : operation) (s : EmailViewer) : result :=
  match o with
  | SwitchCategory => _toggle_mode s
  | LoadRandom rnd => _load_random_email fs rnd s
  | LoadAt index => _load_email_by_index fs index s
  | LoadPrevious => _load_previous_email fs s
  | LoadNext => _load_next_email fs s
  end.

(** The objects a session can be in: the freshly built one, and whatever
    an operation leaves, be it by return or by exception, on whatever the
    disk holds at that moment. *)
Inductive reachable (h sp : list Path) : EmailViewer -> Prop :=
| reachable_init : reachable h sp (__init__ h sp)
| reachable_run fs o s :
    reachable h sp s -> reachable h sp (state_of (run fs o s)).

(** The invariant of the navigation state. *)
Definition index_valid (s : EmailViewer) : Prop :=
  match current_index s with
  | None => True
  | Some i => 0 <= i < len (_get_current_file_list s)
  end.

(** [loadPrevious] and [loadNext] as the specification words them. *)
Definition spec_loadPrevious (fs : filesystem) (s : EmailViewer) : result :=
  match current_index s with
  | None => Returned s
  | Some i =>
      if i =? 0 then Returned s else _load_email_by_index fs (i - 1) s
  end.

Definition spec_loadNext (fs : filesystem) (s : EmailViewer) : result :=
  let n := len (_get_current_file_list s) in
  match current_index s with
  | None => Returned s
  | Some i =>
      if i =? n - 1 then Returned s else _load_email_by_index fs (i + 1) s
  end.

(** Whether the stem of a catalogued file parses as an integer. *)
Definition numeric (int : string -> option Z) (p : Path) : bool :=
  match sort_key int p with
  | Int _ => true
  | Inf => false
  end.

Definition unparsable (int : string -> option Z) (p : Path) : bool :=
  negb (numeric int p).

(** [a <= b] on sort keys. *)
Definition key_le (a b : key) : Prop := key_lt b a = false.

Definition le_by {A : Type} (f : A -> key) (x y : A) : Prop :=
  key_le (f x) (f y).

(** What the catalog promises of the list [out] built from the files
    discovered in the order [raw]: the same files; keys ascending; numbered
    files ascending by their number; every file without a number behind
    every numbered one; the files without a number in discovery order. *)
Definition catalog_ordered (int : string -> option Z)
    (raw out : list Path) : Prop :=
  Permutation raw out
  /\ StronglySorted (le_by (sort_key int)) out
  /\ (forall i j p q a b,
        (i < j)%nat ->
        nth_error out i = Some p -> nth_error out j = Some q ->
        int (stem p) = Some a -> int (stem q) = Some b -> a <= b)
  /\ (forall i j p q,
        nth_error out i = Some p -> nth_error out j = Some q ->
        numeric int p = true -> numeric int q = false -> (i < j)%nat)
  /\ filter (unparsable int) out = filter (unparsable int) raw.

(** The other category. *)
Definition other_mode (m : mode) : mode :=
  match m with
  | ham => spam
  | spam => ham
  end.

(** A directory path that does not exist ([os.stat] answers that there
    is no such entry), and one that exists and holds no entry. *)
Definition missing (fs : filesystem) (p : Path) : Prop :=
  exists msg, stat fs p = Absent msg.

Definition empty_dir (fs : filesystem) (p : Path) : Prop :=
  exists n, stat fs p = Found (Dir n []).

(** A small disk: three numbered mails, one of them unreadable, a mail
    with a name that is no number, and an empty directory. *)
Definition disk : filesystem :=
  Dir "" [Dir "data"
            [Dir "ham" [File "3.txt" (inl "three");
                        File "abc.txt" (inl "letters");
                        File "1.txt" (inl "one");
                        Dir "more" [File "2.txt" (inr "Permission denied")]];
             Dir "empty" []]].

Definition ham_dir : Path := ["data"; "ham"].
Definition spam_dir : Path := ["data"; "spam"].
Definition empty_path : Path := ["data"; "empty"].

(** The same disk once the second mail has become readable. *)
Definition disk_readable : filesystem :=
  Dir "" [Dir "data"
            [Dir "ham" [File "3.txt" (inl "three");
                        File "abc.txt" (inl "letters");
                        File "1.txt" (inl "one");
                        Dir "more" [File "2.txt" (inl "two")]];
             Dir "empty" []]].

(** A disk with a directory that may not be entered, beside an empty
    one. *)
Definition disk_locked : filesystem :=
  Dir "" [Locked "private";
          Dir "data" [Dir "ham" [File "1.txt" (inl "one")]; Dir "empty" []]].

(** The viewer built over the catalog of [disk]. *)
Definition viewer : EmailViewer :=
  match load_email_files int_ascii disk ham_dir spam_dir with
  | inr (h, sp) => __init__ h sp
  | inl _ => __init__ [] []
  end.

(** ** Notions used by the further properties *)

(** [==] on sort keys. *)
Definition key_eqb (a b : key) : bool :=
  match a, b with
  | Int x, Int y => x =? y
  | Inf, Inf => true
  | _, _ => false
  end.

(** What the widgets show for each mode: the colour and the text of the
    label, the text and the style of the mode button. *)
Definition mode_color (m : mode) : string :=
  match m with
  | ham => "green"
  | spam => "red"
  end.

Definition switch_description (m : mode) : string :=
  match m with
  | ham => "Switch to SPAM"
  | spam => "Switch to HAM"
  end.

Definition switch_style (m : mode) : string :=
  match m with
  | ham => "info"
  | spam => "warning"
  end.

(** The widgets agree with the navigation state: the mode button offers
    the other mode; the label either invites to load a mail of the active
    mode or shows a position of the active list with the name of the file
    at that position; and with no mail selected both navigation buttons
    are disabled. *)
Definition widgets_agree (s : EmailViewer) : Prop :=
  let m := current_mode s in
  let l := _get_current_file_list s in
  mode_button_description s = switch_description m
  /\ mode_button_style s = switch_style m
  /\ (info_label s = idle_label (mode_color m) (upper (mode_str m))
      \/ exists i p,
           0 <= i < len l /\ nth_error l (Z.to_nat i) = Some p
           /\ info_label s = email_label (mode_color m) m i (len l) (name p))
  /\ (current_index s = None ->
      prev_button_disabled s = true /\ next_button_disabled s = true).

(** [k] clicks on the next button, and on the previous button. *)
Fixpoint repeat_next (fs : filesystem) (k : nat) (s : EmailViewer)
  : EmailViewer :=
  match k with
  | O => s
  | S k' => repeat_next fs k' (state_of (_load_next_email fs s))
  end.

Fixpoint repeat_previous (fs : filesystem) (k : nat) (s : EmailViewer)
  : EmailViewer :=
  match k with
  | O => s
  | S k' => repeat_previous fs k' (state_of (_load_previous_email fs s))
  end.

(** * Properties *)

(** ** Python's [sorted] *)

Section SortedFacts.
Context {A : Type} (f : A -> key).

Lemma key_lt_le a b : key_lt a b = true -> key_le a b.
Proof.
  unfold key_le. destruct a, b; simpl; intros H; try discriminate; auto.
  apply Z.ltb_lt in H. apply Z.ltb_ge. lia.
Qed.

Lemma key_le_trans a b c : key_le a b -> key_le b c -> key_le a c.
Proof.
  unfold key_le. destruct a, b, c; simpl; intros H1 H2;
    try discriminate; auto.
  apply Z.ltb_ge in H1, H2. apply Z.ltb_ge. lia.
Qed.

Lemma insert_perm x l : Permutation (x :: l) (insert f x l).
Proof.
  induction l as [|y l IH]; simpl; auto.
  destruct (key_lt (f y) (f x)); auto.
  rewrite perm_swap. now constructor.
Qed.

Lemma sorted_perm l : Permutation l (sorted f l).
Proof.
  induction l as [|x l IH]; simpl; auto.
  rewrite <- insert_perm. now constructor.
Qed.

Lemma insert_Forall (P : A -> Prop) x l :
  P x -> Forall P l -> Forall P (insert f x l).
Proof.
  intros Hx Hl. eapply Permutation_Forall; [apply insert_perm|].
  now constructor.
Qed.

Lemma insert_sorted x l :
  StronglySorted (le_by f) l -> StronglySorted (le_by f) (insert f x l).
Proof.
  induction 1 as [|y l Hs IH Hall]; simpl.
  - repeat constructor.
  - destruct (key_lt (f y) (f x)) eqn:E.
    + constructor; auto.
      apply insert_Forall; auto. now apply key_lt_le.
    + constructor; [now constructor|].
      constructor; [exact E|].
      eapply Forall_impl; [|exact Hall].
      intros z Hz. eapply key_le_trans; [exact E|exact Hz].
Qed.

Lemma sorted_sorted l : StronglySorted (le_by f) (sorted f l).
Proof.
  induction l as [|x l IH]; simpl; [constructor|now apply insert_sorted].
Qed.

(** Inserting an element does not disturb the order of the others. *)
Lemma filter_insert_out (P : A -> bool) x l :
  P x = false -> filter P (insert f x l) = filter P l.
Proof.
  intros Hx. induction l as [|y l IH]; simpl.
  - now rewrite Hx.
  - destruct (key_lt (f y) (f x)); simpl.
    + now rewrite IH.
    + now rewrite Hx.
Qed.

(** An element with the greatest key passes exactly the elements with a
    finite key. *)
Lemma filter_insert_inf x l :
  f x = Inf ->
  filter (fun y => match f y with Inf => true | Int _ => false end)
         (insert f x l)
  = x :: filter (fun y => match f y with Inf => true | Int _ => false end) l.
Proof.
  intros Hx. induction l as [|y l IH]; simpl.
  - now rewrite Hx.
  - rewrite Hx. destruct (f y) eqn:Ey; simpl.
    + rewrite Ey. exact IH.
    + now rewrite Hx, Ey.
Qed.

Lemma sorted_keeps_inf_order l :
  filter (fun y => match f y with Inf => true | Int _ => false end)
         (sorted f l)
  = filter (fun y => match f y with Inf => true | Int _ => false end) l.
Proof.
  induction l as [|x l IH]; simpl; auto.
  destruct (f x) eqn:Ex.
  - rewrite filter_insert_out; [exact IH|now rewrite Ex].
  - rewrite filter_insert_inf by exact Ex. now rewrite IH.
Qed.

Lemma StronglySorted_nth (R : A -> A -> Prop) l :
  StronglySorted R l ->
  forall i j a b, (i < j)%nat ->
    nth_error l i = Some a -> nth_error l j = Some b -> R a b.
Proof.
  induction 1 as [|x l Hs IH Hall]; intros i j a b Hij Hi Hj.
  - destruct i; discriminate.
  - destruct j as [|j]; [lia|]. simpl in Hj.
    destruct i as [|i]; simpl in Hi.
    + injection Hi as <-. rewrite Forall_forall in Hall.
      apply Hall. eapply nth_error_In; eauto.
    + apply (IH i j); auto. lia.
Qed.
End SortedFacts.

(** ** The catalog *)

Lemma unparsable_as_key int p :
  unparsable int p
  = match sort_key int p with Inf => true | Int _ => false end.
Proof. unfold unparsable, numeric. now destruct (sort_key int p). Qed.

Lemma sorted_catalog_ordered int raw :
  catalog_ordered int raw (sorted (sort_key int) raw).
Proof.
  pose proof (sorted_sorted (sort_key int) raw) as Hs.
  repeat split.
  - apply sorted_perm.
  - exact Hs.
  - intros i j p q a b Hij Hp Hq Ha Hb.
    pose proof (StronglySorted_nth _ _ Hs i j p q Hij Hp Hq) as H.
    unfold le_by, key_le, sort_key in H. rewrite Ha, Hb in H.
    simpl in H. apply Z.ltb_ge in H. exact H.
  - intros i j p q Hp Hq Np Nq.
    destruct (Nat.lt_trichotomy i j) as [Hlt|[Heq|Hgt]]; [exact Hlt| |].
    + subst j. rewrite Hp in Hq. injection Hq as <-. congruence.
    + pose proof (StronglySorted_nth _ _ Hs j i q p Hgt Hq Hp) as H.
      unfold le_by, key_le in H. unfold numeric in Np, Nq.
      destruct (sort_key int p), (sort_key int q); discriminate.
  - rewrite (filter_ext _ _ (unparsable_as_key int)).
    rewrite (filter_ext _ _ (unparsable_as_key int) raw).
    apply sorted_keeps_inf_order.
Qed.

(** The build in terms of the two listings. *)
Lemma load_email_files_cases int fs hd sd :
  load_email_files int fs hd sd
  = match rglob_txt fs hd, rglob_txt fs sd with
    | inl e, _ => inl e
    | inr _, inl e => inl e
    | inr rawh, inr raws =>
        inr (sorted (sort_key int) rawh, sorted (sort_key int) raws)
    end.
Proof.
  unfold load_email_files.
  destruct (rglob_txt fs hd); [reflexivity|].
  destruct (rglob_txt fs sd); reflexivity.
Qed.

(** C4: for every pair of directories, on every disk and whatever strings
    [int] accepts, each list that [load_email_files] returns holds the
    discovered files of its category in ascending order of the integer
    parsed from the stem, every file whose stem is no integer behind all
    the numbered ones, and those files in the order in which they were
    discovered.  The build returns these lists unless a listing itself
    raises, and then it raises that error. *)
Theorem load_email_files_ordered int fs hd sd :
  match load_email_files int fs hd sd with
  | inr (h, s) =>
      exists rawh raws,
        rglob_txt fs hd = inr rawh /\ rglob_txt fs sd = inr raws
        /\ catalog_ordered int rawh h /\ catalog_ordered int raws s
  | inl e => rglob_txt fs hd = inl e \/ rglob_txt fs sd = inl e
  end.
Proof.
  rewrite load_email_files_cases.
  destruct (rglob_txt fs hd) as [e|rawh]; [now left|].
  destruct (rglob_txt fs sd) as [e|raws]; [now right|].
  exists rawh, raws. repeat split; apply sorted_catalog_ordered.
Qed.

Example catalog_of_disk :
  load_email_files int_ascii disk ham_dir spam_dir
  = inr ([["data"; "ham"; "1.txt"]; ["data"; "ham"; "more"; "2.txt"];
          ["data"; "ham"; "3.txt"]; ["data"; "ham"; "abc.txt"]], []).
Proof. vm_compute. reflexivity. Qed.

Example sorted_numbers_first :
  sorted (sort_key int_ascii)
    [["abc.txt"]; ["2.txt"]; ["x.txt"]; ["10.txt"]; ["-1.txt"]]
  = [["-1.txt"]; ["2.txt"]; ["10.txt"]; ["abc.txt"]; ["x.txt"]].
Proof. vm_compute. reflexivity. Qed.

(** A directory below one that may not be entered, and a name longer than
    the file system allows: the listing raises, and so does the build. *)
Example catalog_below_locked :
  load_email_files int_ascii disk_locked ["private"; "ham"] ham_dir
  = inl (OSError "[Errno 13] Permission denied: 'private/ham'")
  /\ rglob_txt disk_locked ["private"] = inr [].
Proof. vm_compute. split; reflexivity. Qed.

Example catalog_name_too_long :
  rglob_txt disk [str_mul "a" 300]
  = inl (os_error "[Errno 36] File name too long" [str_mul "a" 300])
  /\ rglob_txt disk ["data"; "spam"; str_mul "a" 300] = inr [].
Proof. vm_compute. split; reflexivity. Qed.

Lemma rglob_txt_nothing fs p :
  missing fs p \/ empty_dir fs p -> rglob_txt fs p = inr [].
Proof.
  unfold missing, empty_dir, rglob_txt.
  intros [[msg H]|[n H]]; rewrite H; reflexivity.
Qed.

(** C2, against the claim: the directory [data/spam] is not on the disk,
    and the build does not fail: it returns, with an empty list for it.
    And an empty directory gives no list at all when the listing of the
    other directory raises: the build then ends with that error. *)
Lemma load_email_files_missing_dir_returns :
  (missing disk spam_dir
   /\ load_email_files int_ascii disk ham_dir spam_dir
      = inr ([["data"; "ham"; "1.txt"]; ["data"; "ham"; "more"; "2.txt"];
              ["data"; "ham"; "3.txt"]; ["data"; "ham"; "abc.txt"]], []))
  /\ (empty_dir disk_locked empty_path
      /\ load_email_files int_ascii disk_locked empty_path ["private"; "ham"]
         = inl (OSError "[Errno 13] Permission denied: 'private/ham'")).
Proof.
  split; split;
    [exists "[Errno 2] No such file or directory"| |exists "empty"|];
    vm_compute; reflexivity.
Qed.

(** C2, amended: a directory that does not exist does not make the build
    fail: like a directory that exists without any entry, it gives the
    empty list for its category, in whichever of the two positions it is
    passed, and the build returns as soon as the listing of the other
    directory raises nothing. *)
Theorem load_email_files_nothing_found int fs p q rawq :
  missing fs p \/ empty_dir fs p ->
  rglob_txt fs q = inr rawq ->
  load_email_files int fs p q = inr ([], sorted (sort_key int) rawq)
  /\ load_email_files int fs q p = inr (sorted (sort_key int) rawq, []).
Proof.
  intros H Hq. rewrite !load_email_files_cases.
  rewrite (rglob_txt_nothing fs p H), Hq. split; reflexivity.
Qed.

Lemma load_email_files_nothing_found_witness :
  (load_email_files int_ascii disk spam_dir empty_path
   = inr ([], sorted (sort_key int_ascii) [])
   /\ load_email_files int_ascii disk empty_path spam_dir
      = inr (sorted (sort_key int_ascii) [], []))
  /\ (load_email_files int_ascii disk empty_path spam_dir
      = inr ([], sorted (sort_key int_ascii) [])
      /\ load_email_files int_ascii disk spam_dir empty_path
         = inr (sorted (sort_key int_ascii) [], [])).
Proof.
  split.
  - apply (load_email_files_nothing_found int_ascii disk spam_dir empty_path).
    + left. exists "[Errno 2] No such file or directory".
      vm_compute. reflexivity.
    + vm_compute. reflexivity.
  - apply (load_email_files_nothing_found int_ascii disk empty_path spam_dir).
    + right. exists "empty". vm_compute. reflexivity.
    + vm_compute. reflexivity.
Defined.

(** When a listing raises, the build raises the same error. *)
Lemma load_email_files_raises int fs hd sd e :
  rglob_txt fs hd = inl e -> load_email_files int fs hd sd = inl e.
Proof. intros H. rewrite load_email_files_cases, H. reflexivity. Qed.

(** ** The navigation handlers *)

Lemma nth_error_in_range {A : Type} (l : list A) (i : Z) :
  0 <= i < len l -> exists x, nth_error l (Z.to_nat i) = Some x.
Proof.
  unfold len. intros H.
  destruct (nth_error l (Z.to_nat i)) as [x|] eqn:E; [now exists x|].
  apply nth_error_None in E. lia.
Qed.

Lemma out_of_range_guard {A : Type} (l : list A) (i : Z) :
  ((i <? 0) || (i >=? len l)) = false <-> 0 <= i < len l.
Proof.
  rewrite orb_false_iff, Z.ltb_ge, Z.geb_leb, Z.leb_gt. lia.
Qed.

(** The list of the active category only depends on the mode and on the
    two lists. *)
Lemma file_list_frame s s' :
  ham_files s' = ham_files s -> spam_files s' = spam_files s ->
  current_mode s' = current_mode s ->
  _get_current_file_list s' = _get_current_file_list s.
Proof. unfold _get_current_file_list. now intros -> -> ->. Qed.

(** An indexed load returns, whatever the index and the disk. *)
Lemma load_email_by_index_returns fs i s :
  exists s', _load_email_by_index fs i s = Returned s'.
Proof.
  unfold _load_email_by_index.
  destruct ((i <? 0) || (i >=? len (_get_current_file_list s))) eqn:G;
    [now exists s|].
  apply out_of_range_guard in G.
  destruct (nth_error_in_range _ _ G) as [p ->].
  destruct (open_read fs p); eexists; reflexivity.
Qed.

(** It leaves the two lists and the mode alone, and the index is the
    requested one when that is in range and the old one otherwise. *)
Lemma load_email_by_index_state fs i s :
  let s' := state_of (_load_email_by_index fs i s) in
  ham_files s' = ham_files s /\ spam_files s' = spam_files s
  /\ current_mode s' = current_mode s
  /\ current_index s'
     = if (i <? 0) || (i >=? len (_get_current_file_list s))
       then current_index s else Some i.
Proof.
  unfold _load_email_by_index.
  destruct ((i <? 0) || (i >=? len (_get_current_file_list s))) eqn:G;
    [simpl; auto|].
  apply out_of_range_guard in G.
  destruct (nth_error_in_range _ _ G) as [p ->].
  destruct (open_read fs p); simpl; auto.
Qed.

Lemma load_email_by_index_valid fs i s :
  index_valid s -> index_valid (state_of (_load_email_by_index fs i s)).
Proof.
  intros Hs.
  destruct (load_email_by_index_state fs i s) as (Hh & Hsp & Hm & Hi).
  unfold index_valid. rewrite Hi, (file_list_frame _ _ Hh Hsp Hm).
  destruct ((i <? 0) || (i >=? len (_get_current_file_list s))) eqn:G.
  - exact Hs.
  - now apply out_of_range_guard.
Qed.

Lemma run_valid fs o s :
  index_valid s -> index_valid (state_of (run fs o s)).
Proof.
  intros Hs. destruct o as [|rnd|i| |]; simpl.
  - unfold index_valid; simpl. exact I.
  - unfold _load_random_email.
    destruct (randint rnd 0 (len (_get_current_file_list s) - 1)); simpl;
      [exact Hs|now apply load_email_by_index_valid].
  - now apply load_email_by_index_valid.
  - unfold _load_previous_email.
    destruct (current_index s) as [i|] eqn:E; [|exact Hs].
    destruct (i >? 0); [now apply load_email_by_index_valid|exact Hs].
  - unfold _load_next_email.
    destruct (current_index s) as [i|] eqn:E; [|exact Hs].
    destruct (i <? len (_get_current_file_list s) - 1);
      [now apply load_email_by_index_valid|exact Hs].
Qed.

Lemma reachable_valid h sp s : reachable h sp s -> index_valid s.
Proof.
  induction 1 as [|fs o s Hr IH]; [exact I|now apply run_valid].
Qed.

(** C6: in every reachable state, whichever operation runs and whatever
    the disk holds, the state it leaves (by return or by exception, a
    failed read included) has no current index or one that is a valid
    index into the list of the active category. *)
Theorem operations_keep_index_valid h sp s fs o :
  reachable h sp s -> index_valid (state_of (run fs o s)).
Proof. intros Hr. apply run_valid. now apply (reachable_valid h sp). Qed.

Lemma operations_keep_index_valid_witness :
  index_valid (state_of (run disk LoadNext
                           (state_of (run disk (LoadAt 0) viewer)))).
Proof.
  apply (operations_keep_index_valid
           (ham_files viewer) (spam_files viewer)
           (state_of (run disk (LoadAt 0) viewer)) disk LoadNext).
  apply reachable_run. apply reachable_init.
Defined.

(** C9: an indexed load with an index below zero or not below the length
    of the active list returns with the object, its state and every
    widget, exactly as it was. *)
Theorem load_email_by_index_out_of_range fs index s :
  index < 0 \/ index >= len (_get_current_file_list s) ->
  _load_email_by_index fs index s = Returned s.
Proof.
  intros H. unfold _load_email_by_index.
  destruct ((index <? 0) || (index >=? len (_get_current_file_list s)))
    eqn:G; [reflexivity|].
  apply out_of_range_guard in G. lia.
Qed.

Lemma load_email_by_index_out_of_range_witness :
  _load_email_by_index disk 4 viewer = Returned viewer
  /\ _load_email_by_index disk (-1) viewer = Returned viewer.
Proof.
  split.
  - apply (load_email_by_index_out_of_range disk 4 viewer).
    right. vm_compute. discriminate.
  - apply (load_email_by_index_out_of_range disk (-1) viewer).
    left. lia.
Defined.

(** C5, against the claim: index 1 is in range in the catalog of [disk],
    but the second mail cannot be read; the load then leaves both flags
    false and the label without position or file name, where the claim
    asks for a previous and a next mail. *)
Lemma load_email_by_index_unreadable_no_result :
  0 <= 1 < len (_get_current_file_list viewer)
  /\ (let s' := state_of (_load_email_by_index disk 1 viewer) in
      current_index s' = Some 1
      /\ has_previous s' = false /\ (0 <? 1) = true
      /\ has_next s' = false
      /\ (1 <? len (_get_current_file_list viewer) - 1) = true
      /\ info_label s' = idle_label "green" "HAM").
Proof. vm_compute. repeat split; discriminate. Qed.

(** C5, amended: for every index [i] with [0 <= i < n], [n] the length of
    the active list, the indexed load returns with the current index set
    to [i]; and when the file at position [i] is read without error, the
    label carries position [i + 1] of [n] and the name of that file, the
    previous flag is [i > 0], the next flag is [i < n - 1], and the mail is
    printed. *)
Theorem load_email_by_index_in_range fs i s :
  let l := _get_current_file_list s in
  let n := len l in
  0 <= i < n ->
  exists p s',
    nth_error l (Z.to_nat i) = Some p
    /\ _load_email_by_index fs i s = Returned s'
    /\ current_index s' = Some i
    /\ current_mode s' = current_mode s
    /\ _get_current_file_list s' = l
    /\ forall content,
         open_read fs p = inr content ->
         info_label s'
         = email_label (if mode_eqb (current_mode s) ham
                        then "green" else "red")
                       (current_mode s) i n (name p)
         /\ has_previous s' = (0 <? i)
         /\ has_next s' = (i <? n - 1)
         /\ output s'
            = ["Email Type: " ++ upper (mode_str (current_mode s));
               "File: " ++ name p ++ " (Index: " ++ str_int (i + 1) ++ "/"
               ++ str_int n ++ ")";
               str_mul "=" 60; content; str_mul "=" 60].
Proof.
  intros l n Hi. subst l n.
  destruct (nth_error_in_range _ _ Hi) as [p Hp].
  unfold _load_email_by_index.
  apply out_of_range_guard in Hi as G. rewrite G, Hp.
  exists p.
  destruct (open_read fs p) as [e|content] eqn:R; eexists;
    (split; [reflexivity|]); (split; [reflexivity|]); simpl;
    do 3 (split; [reflexivity|]).
  - intros content; discriminate.
  - intros c [= <-]. unfold has_previous, has_next; simpl.
    repeat split.
    + destruct (Z.eqb_spec i 0); destruct (Z.ltb_spec 0 i);
        try reflexivity; lia.
    + destruct (Z.eqb_spec i (len (_get_current_file_list s) - 1));
        destruct (Z.ltb_spec i (len (_get_current_file_list s) - 1));
        try reflexivity; lia.
Qed.

Lemma load_email_by_index_in_range_witness :
  exists p s',
    nth_error (_get_current_file_list viewer) (Z.to_nat 0) = Some p
    /\ _load_email_by_index disk 0 viewer = Returned s'
    /\ current_index s' = Some 0
    /\ current_mode s' = current_mode viewer
    /\ _get_current_file_list s' = _get_current_file_list viewer
    /\ forall content,
         open_read disk p = inr content ->
         info_label s'
         = email_label (if mode_eqb (current_mode viewer) ham
                        then "green" else "red")
                       (current_mode viewer) 0
                       (len (_get_current_file_list viewer)) (name p)
         /\ has_previous s' = (0 <? 0)
         /\ has_next s' = (0 <? len (_get_current_file_list viewer) - 1)
         /\ output s'
            = ["Email Type: " ++ upper (mode_str (current_mode viewer));
               "File: " ++ name p ++ " (Index: " ++ str_int (0 + 1) ++ "/"
               ++ str_int (len (_get_current_file_list viewer)) ++ ")";
               str_mul "=" 60; content; str_mul "=" 60].
Proof.
  apply (load_email_by_index_in_range disk 0 viewer).
  vm_compute. split; [discriminate|reflexivity].
Defined.

Example load_first_of_disk :
  let s' := state_of (_load_email_by_index disk 0 viewer) in
  current_index s' = Some 0
  /\ info_label s'
     = "<b>Mode: <span style='color:green'>HAM</span> | Email 1/4 | <code>1.txt</code></b>"
  /\ has_previous s' = false /\ has_next s' = true
  /\ output s'
     = ["Email Type: HAM"; "File: 1.txt (Index: 1/4)";
        "============================================================";
        "one";
        "============================================================"].
Proof. vm_compute. repeat split. Qed.

(** What a failed read does in general: the index is the requested one,
    the error text is the only output, and label and buttons are those of
    the state before the call. *)
Lemma load_email_by_index_read_error fs i s p e :
  0 <= i < len (_get_current_file_list s) ->
  nth_error (_get_current_file_list s) (Z.to_nat i) = Some p ->
  open_read fs p = inl e ->
  exists s',
    _load_email_by_index fs i s = Returned s'
    /\ current_index s' = Some i
    /\ output s' = ["Error reading file: " ++ str_exn e]
    /\ info_label s' = info_label s
    /\ prev_button_disabled s' = prev_button_disabled s
    /\ next_button_disabled s' = next_button_disabled s.
Proof.
  intros Hi Hp He. unfold _load_email_by_index.
  apply out_of_range_guard in Hi. rewrite Hi, Hp, He.
  eexists. repeat split.
Qed.

(** C3, the code at the failing input: the first mail is shown, then the
    second is requested and its read fails.  The error is printed and the
    index moves to 1, but the flags and the label stay those of the first
    mail: no previous mail is offered.  Had the read succeeded, both flags
    would be set for index 1. *)
Theorem read_error_keeps_old_flags :
  let s0 := state_of (_load_email_by_index disk 0 viewer) in
  let failed := _load_email_by_index disk 1 s0 in
  let succeeded := _load_email_by_index disk_readable 1 s0 in
  (exists s1, failed = Returned s1)
  /\ output (state_of failed) = ["Error reading file: Permission denied"]
  /\ current_index (state_of failed) = Some 1
  /\ current_index (state_of succeeded) = Some 1
  /\ has_previous (state_of failed) = false
  /\ has_previous (state_of succeeded) = true
  /\ has_next (state_of failed) = true
  /\ has_next (state_of succeeded) = true
  /\ info_label (state_of failed) = info_label s0
  /\ info_label (state_of succeeded) <> info_label s0.
Proof.
  vm_compute. repeat split; try discriminate. eexists; reflexivity.
Qed.

(** C7: in every state, the previous handler does nothing when the
    current index is none or 0 and otherwise is the indexed load of the
    index before; the next handler does nothing when the current index is
    none or [n - 1] and otherwise is the indexed load of the index after;
    and both always return, no exception leaves them. *)
Theorem previous_next_as_specified fs s :
  _load_previous_email fs s = spec_loadPrevious fs s
  /\ _load_next_email fs s = spec_loadNext fs s
  /\ (exists s', _load_previous_email fs s = Returned s')
  /\ (exists s', _load_next_email fs s = Returned s').
Proof.
  assert (Hp : exists s', _load_previous_email fs s = Returned s').
  { unfold _load_previous_email.
    destruct (current_index s) as [i|]; [|now exists s].
    destruct (i >? 0); [apply load_email_by_index_returns|now exists s]. }
  assert (Hn : exists s', _load_next_email fs s = Returned s').
  { unfold _load_next_email.
    destruct (current_index s) as [i|]; [|now exists s].
    destruct (i <? len (_get_current_file_list s) - 1);
      [apply load_email_by_index_returns|now exists s]. }
  repeat split; auto.
  - unfold _load_previous_email, spec_loadPrevious.
    destruct (current_index s) as [i|]; [|reflexivity].
    rewrite Z.gtb_ltb.
    destruct (Z.ltb_spec 0 i), (Z.eqb_spec i 0); try reflexivity; try lia.
    unfold _load_email_by_index.
    replace (i - 1 <? 0) with true by (symmetry; apply Z.ltb_lt; lia).
    reflexivity.
  - unfold _load_next_email, spec_loadNext.
    destruct (current_index s) as [i|]; [|reflexivity].
    destruct (Z.ltb_spec i (len (_get_current_file_list s) - 1)),
      (Z.eqb_spec i (len (_get_current_file_list s) - 1));
      try reflexivity; try lia.
    unfold _load_email_by_index.
    replace (i + 1 >=? len (_get_current_file_list s)) with true
      by (symmetry; rewrite Z.geb_leb; apply Z.leb_le; lia).
    now rewrite orb_true_r.
Qed.

Example previous_at_first_is_noop :
  let s0 := state_of (_load_email_by_index disk 0 viewer) in
  _load_previous_email disk s0 = Returned s0.
Proof. vm_compute. reflexivity. Qed.

Example next_at_last_is_noop :
  let s3 := state_of (_load_email_by_index disk 3 viewer) in
  _load_next_email disk s3 = Returned s3.
Proof. vm_compute. reflexivity. Qed.

(** C8: in every state the mode switch returns, with the mode flipped,
    no current index, both navigation buttons disabled, the two lists and
    the output area untouched (the handler takes no disk); and a second
    switch brings the mode back. *)
Theorem toggle_mode_flips_and_resets s :
  exists s',
    _toggle_mode s = Returned s'
    /\ current_mode s' = other_mode (current_mode s)
    /\ current_index s' = None
    /\ has_previous s' = false /\ has_next s' = false
    /\ ham_files s' = ham_files s /\ spam_files s' = spam_files s
    /\ output s' = output s
    /\ exists s'',
         _toggle_mode s' = Returned s''
         /\ current_mode s'' = current_mode s
         /\ current_index s'' = None.
Proof.
  eexists. split; [reflexivity|].
  destruct s as [h sp m i out lbl d st pd nd]. simpl.
  destruct m; simpl; repeat split; eexists; repeat split.
Qed.

(** Two switches also restore the label and the mode button of a state
    that shows no mail. *)
Lemma toggle_mode_twice_init h sp :
  forall s', _toggle_mode (__init__ h sp) = Returned s' ->
  _toggle_mode s' = Returned (__init__ h sp).
Proof. intros s' [= <-]. reflexivity. Qed.

(** [random.randint(0, n - 1)] on a list that is not empty draws an index
    of the list, and every index can be drawn. *)
Lemma randint_in_range rnd n :
  0 < n -> exists i, randint rnd 0 (n - 1) = inr i /\ 0 <= i < n.
Proof.
  intros Hn. unfold randint.
  destruct (Z.ltb_spec (n - 1) 0); [lia|].
  eexists. split; [reflexivity|].
  replace (n - 1 - 0 + 1) with n by lia.
  pose proof (Z.mod_pos_bound rnd n Hn). lia.
Qed.

Lemma randint_any_index i n :
  0 <= i < n -> randint i 0 (n - 1) = inr i.
Proof.
  intros Hi. unfold randint.
  destruct (Z.ltb_spec (n - 1) 0); [lia|].
  replace (n - 1 - 0 + 1) with n by lia.
  now rewrite Z.mod_small.
Qed.

(** On a list that is not empty the random load is the indexed load of an
    index of the list. *)
Lemma load_random_email_nonempty fs rnd s :
  0 < len (_get_current_file_list s) ->
  exists i,
    0 <= i < len (_get_current_file_list s)
    /\ _load_random_email fs rnd s = _load_email_by_index fs i s.
Proof.
  intros Hn. destruct (randint_in_range rnd _ Hn) as (i & Hr & Hi).
  exists i. split; [exact Hi|].
  unfold _load_random_email. now rewrite Hr.
Qed.

(** C10: in every state whose active list is empty, the random load ends
    with the [ValueError] of [random.randint], raised while the index is
    drawn, and the object is exactly as it was before the call. *)
Theorem load_random_email_empty_unchanged fs rnd s :
  _get_current_file_list s = [] ->
  _load_random_email fs rnd s
  = Raised (ValueError "empty range for randrange()") s.
Proof.
  intros H. unfold _load_random_email. rewrite H. reflexivity.
Qed.

Lemma load_random_email_empty_unchanged_witness :
  _load_random_email disk 5 (__init__ [] [])
  = Raised (ValueError "empty range for randrange()") (__init__ [] []).
Proof.
  apply (load_random_email_empty_unchanged disk 5 (__init__ [] [])).
  reflexivity.
Defined.

(** C1, the code at the failing input: the catalog of [disk] has no spam
    (the directory is missing); after a switch to spam the random load
    does not return: the [ValueError] of [random.randint(0, -1)] leaves the
    handler, and nothing is printed or written to the label to report
    it. *)
Theorem load_random_email_empty_raises :
  let s := state_of (_toggle_mode viewer) in
  _get_current_file_list s = []
  /\ forall fs rnd,
       _load_random_email fs rnd s
       = Raised (ValueError "empty range for randrange()") s
       /\ output (state_of (_load_random_email fs rnd s)) = []
       /\ info_label (state_of (_load_random_email fs rnd s))
          = idle_label "red" "SPAM".
Proof.
  vm_compute. split; [reflexivity|]. intros fs rnd. repeat split.
Qed.

(** * Further properties of the code *)

(** ** What the handlers keep *)

Lemma run_frame fs o s :
  ham_files (state_of (run fs o s)) = ham_files s
  /\ spam_files (state_of (run fs o s)) = spam_files s.
Proof.
  destruct o as [|rnd|i| |]; simpl.
  - unfold _toggle_mode. destruct (mode_eqb (current_mode s) ham); auto.
  - unfold _load_random_email.
    destruct (randint rnd 0 (len (_get_current_file_list s) - 1)); simpl;
      [auto|].
    destruct (load_email_by_index_state fs z s) as (H1 & H2 & _). auto.
  - destruct (load_email_by_index_state fs i s) as (H1 & H2 & _). auto.
  - unfold _load_previous_email.
    destruct (current_index s) as [i|]; [|auto].
    destruct (i >? 0); [|auto].
    destruct (load_email_by_index_state fs (i - 1) s) as (H1 & H2 & _). auto.
  - unfold _load_next_email.
    destruct (current_index s) as [i|]; [|auto].
    destruct (i <? len (_get_current_file_list s) - 1); [|auto].
    destruct (load_email_by_index_state fs (i + 1) s) as (H1 & H2 & _). auto.
Qed.

(** X1: the two lists handed to the constructor are never changed: in
    every state a session reaches they are the lists it was built with. *)
Theorem reachable_keeps_catalog h sp s :
  reachable h sp s -> ham_files s = h /\ spam_files s = sp.
Proof.
  induction 1 as [|fs o s Hr [IHh IHs]]; [split; reflexivity|].
  destruct (run_frame fs o s) as [H1 H2]. rewrite H1, H2. auto.
Qed.

Lemma reachable_keeps_catalog_witness :
  ham_files (state_of (run disk LoadNext
                         (state_of (run disk (LoadRandom 7) viewer))))
  = ham_files viewer
  /\ spam_files (state_of (run disk LoadNext
                            (state_of (run disk (LoadRandom 7) viewer))))
     = spam_files viewer.
Proof.
  apply (reachable_keeps_catalog (ham_files viewer) (spam_files viewer)).
  apply reachable_run. apply reachable_run. apply reachable_init.
Defined.

Lemma mode_color_as_code m :
  (if mode_eqb m ham then "green" else "red") = mode_color m.
Proof. now destruct m. Qed.

Lemma load_email_by_index_agree fs i s :
  widgets_agree s -> widgets_agree (state_of (_load_email_by_index fs i s)).
Proof.
  intros (Hd & Hst & Hl & Hn). unfold _load_email_by_index.
  destruct ((i <? 0) || (i >=? len (_get_current_file_list s))) eqn:G;
    [simpl; repeat split; auto; apply Hn; auto|].
  apply out_of_range_guard in G.
  destruct (nth_error_in_range _ _ G) as [p Hp]. rewrite Hp.
  destruct (open_read fs p) as [e|content]; simpl.
  - repeat split; simpl; auto; discriminate.
  - repeat split; simpl; auto; try discriminate.
    right. exists i, p. rewrite mode_color_as_code. auto.
Qed.

Lemma run_agree fs o s :
  widgets_agree s -> widgets_agree (state_of (run fs o s)).
Proof.
  intros Hs. destruct o as [|rnd|i| |]; simpl.
  - unfold _toggle_mode.
    destruct (current_mode s); simpl; repeat split; simpl; auto.
  - unfold _load_random_email.
    destruct (randint rnd 0 (len (_get_current_file_list s) - 1)); simpl;
      [exact Hs|now apply load_email_by_index_agree].
  - now apply load_email_by_index_agree.
  - unfold _load_previous_email.
    destruct (current_index s) as [i|]; [|exact Hs].
    destruct (i >? 0); [now apply load_email_by_index_agree|exact Hs].
  - unfold _load_next_email.
    destruct (current_index s) as [i|]; [|exact Hs].
    destruct (i <? len (_get_current_file_list s) - 1);
      [now apply load_email_by_index_agree|exact Hs].
Qed.

(** X2: in every reachable state the widgets agree with the navigation
    state: the mode button offers the other mode, the label names the
    active mode and, when it shows a mail, a position inside the active
    list with the name of the file there, and while no mail is selected
    both navigation buttons are disabled.  A failed read does not break
    this. *)
Theorem reachable_widgets_agree h sp s :
  reachable h sp s -> widgets_agree s.
Proof.
  induction 1 as [|fs o s Hr IH].
  - repeat split; simpl; auto.
  - now apply run_agree.
Qed.

Lemma reachable_widgets_agree_witness :
  widgets_agree (state_of (run disk LoadNext
                             (state_of (run disk (LoadAt 0) viewer)))).
Proof.
  apply (reachable_widgets_agree (ham_files viewer) (spam_files viewer)).
  apply reachable_run. apply reachable_run. apply reachable_init.
Defined.

(** ** When an operation raises *)

Lemma len_zero_nil {A : Type} (l : list A) : len l <= 0 -> l = [].
Proof. destruct l; [reflexivity|]. unfold len; simpl. lia. Qed.

Lemma previous_returns fs s :
  exists s', _load_previous_email fs s = Returned s'.
Proof.
  unfold _load_previous_email.
  destruct (current_index s) as [i|]; [|now exists s].
  destruct (i >? 0); [apply load_email_by_index_returns|now exists s].
Qed.

Lemma next_returns fs s :
  exists s', _load_next_email fs s = Returned s'.
Proof.
  unfold _load_next_email.
  destruct (current_index s) as [i|]; [|now exists s].
  destruct (i <? len (_get_current_file_list s) - 1);
    [apply load_email_by_index_returns|now exists s].
Qed.

(** X3: the only way an operation ends in an exception is a random load
    while the active list is empty; the exception is then the
    [ValueError] of [random.randint] and the object is untouched.  In
    particular no operation ever raises [IndexError]. *)
Theorem run_raises_only_random_on_empty fs o s e s' :
  run fs o s = Raised e s' ->
  (exists rnd, o = LoadRandom rnd)
  /\ _get_current_file_list s = []
  /\ e = ValueError "empty range for randrange()"
  /\ s' = s.
Proof.
  destruct o as [|rnd|i| |]; simpl; intros H.
  - discriminate.
  - unfold _load_random_email, randint in H.
    destruct (Z.ltb_spec (len (_get_current_file_list s) - 1) 0) as [L|L].
    + injection H as <- <-. repeat split; [now exists rnd|].
      apply len_zero_nil. lia.
    + destruct (load_email_by_index_returns fs
                  (0 + rnd mod (len (_get_current_file_list s) - 1 - 0 + 1))
                  s) as [s1 H1].
      rewrite H1 in H. discriminate.
  - destruct (load_email_by_index_returns fs i s) as [s1 H1].
    rewrite H1 in H. discriminate.
  - destruct (previous_returns fs s) as [s1 H1].
    rewrite H1 in H. discriminate.
  - destruct (next_returns fs s) as [s1 H1].
    rewrite H1 in H. discriminate.
Qed.

Lemma run_raises_only_random_on_empty_witness :
  (exists rnd, LoadRandom 3 = LoadRandom rnd)
  /\ _get_current_file_list (__init__ [] []) = []
  /\ ValueError "empty range for randrange()"
     = ValueError "empty range for randrange()"
  /\ __init__ [] [] = __init__ [] [].
Proof.
  apply (run_raises_only_random_on_empty disk (LoadRandom 3) (__init__ [] [])
           (ValueError "empty range for randrange()") (__init__ [] [])).
  reflexivity.
Defined.

(** X4: on an active list that is not empty the random load returns, the
    index it leaves is an index of the list, and it is the indexed load of
    the drawn index; every index of the list can be drawn. *)
Theorem load_random_email_on_nonempty fs rnd s :
  0 < len (_get_current_file_list s) ->
  (exists i s',
      0 <= i < len (_get_current_file_list s)
      /\ _load_random_email fs rnd s = Returned s'
      /\ _load_email_by_index fs i s = Returned s'
      /\ current_index s' = Some i)
  /\ (forall j, 0 <= j < len (_get_current_file_list s) ->
        _load_random_email fs j s = _load_email_by_index fs j s).
Proof.
  intros Hn. split.
  - destruct (randint_in_range rnd _ Hn) as (i & Hr & Hi).
    destruct (load_email_by_index_returns fs i s) as [s' Hs'].
    exists i, s'. unfold _load_random_email. rewrite Hr.
    repeat split; auto; try lia.
    destruct (load_email_by_index_state fs i s) as (_ & _ & _ & Hc).
    rewrite Hs' in Hc. simpl in Hc. rewrite Hc.
    apply out_of_range_guard in Hi. now rewrite Hi.
  - intros j Hj. unfold _load_random_email.
    now rewrite (randint_any_index j _ Hj).
Qed.

Lemma load_random_email_on_nonempty_witness :
  (exists i s',
      0 <= i < len (_get_current_file_list viewer)
      /\ _load_random_email disk 6 viewer = Returned s'
      /\ _load_email_by_index disk i viewer = Returned s'
      /\ current_index s' = Some i)
  /\ (forall j, 0 <= j < len (_get_current_file_list viewer) ->
        _load_random_email disk j viewer = _load_email_by_index disk j viewer).
Proof.
  apply (load_random_email_on_nonempty disk 6 viewer).
  vm_compute. reflexivity.
Defined.

(** ** How loads compose *)

(** X5: loading the same index twice in a row, on the same disk, leaves
    exactly what loading it once leaves: whether the index is out of
    range, the read fails or the read succeeds. *)
Theorem load_email_by_index_idempotent fs i s :
  _load_email_by_index fs i (state_of (_load_email_by_index fs i s))
  = _load_email_by_index fs i s.
Proof.
  destruct s as [h sp m ci out lbl d st pd nd].
  unfold _load_email_by_index at 2 3.
  destruct ((i <? 0)
            || (i >=? len (_get_current_file_list
                             (mkEmailViewer h sp m ci out lbl d st pd nd))))
    eqn:G.
  - simpl state_of. unfold _load_email_by_index. now rewrite G.
  - destruct (nth_error _ (Z.to_nat i)) as [p|] eqn:Hp.
    + destruct (open_read fs p) as [e|content] eqn:R;
        simpl state_of; unfold _load_email_by_index;
        unfold _get_current_file_list in *; simpl in *;
        rewrite G, Hp, R; reflexivity.
    + simpl state_of. unfold _load_email_by_index.
      unfold _get_current_file_list in *; simpl in *.
      rewrite G, Hp. reflexivity.
Qed.

(** X6: a load whose read succeeds leaves a state that does not depend on
    what was loaded before it: after any earlier indexed load, on any
    disk, it gives what it gives on the state before that load. *)
Theorem load_email_by_index_last_wins fs fs' i j s p content :
  0 <= i < len (_get_current_file_list s) ->
  nth_error (_get_current_file_list s) (Z.to_nat i) = Some p ->
  open_read fs p = inr content ->
  _load_email_by_index fs i (state_of (_load_email_by_index fs' j s))
  = _load_email_by_index fs i s.
Proof.
  intros Hi Hp R. apply out_of_range_guard in Hi.
  destruct s as [h sp m ci out lbl d st pd nd].
  unfold _load_email_by_index at 2.
  destruct ((j <? 0) || (j >=? len _)) eqn:G; [reflexivity|].
  destruct (nth_error _ (Z.to_nat j)) as [q|] eqn:Hq;
    [destruct (open_read fs' q) as [e|c']|];
    simpl state_of; unfold _load_email_by_index;
    unfold _get_current_file_list in *; simpl in *;
    rewrite Hi, Hp, R; reflexivity.
Qed.

Lemma load_email_by_index_last_wins_witness :
  _load_email_by_index disk 2
    (state_of (_load_email_by_index disk 1 viewer))
  = _load_email_by_index disk 2 viewer.
Proof.
  apply (load_email_by_index_last_wins disk disk 2 1 viewer
           ["data"; "ham"; "3.txt"] "three").
  - vm_compute. split; [discriminate|reflexivity].
  - reflexivity.
  - reflexivity.
Defined.

(** ** Stepping through the list *)

(** One click on next, from a valid position: the index moves one up and
    stops at the last mail; mode and lists stay. *)
Lemma next_moves fs s i :
  index_valid s -> current_index s = Some i ->
  let s' := state_of (_load_next_email fs s) in
  current_index s'
  = Some (Z.min (i + 1) (len (_get_current_file_list s) - 1))
  /\ _get_current_file_list s' = _get_current_file_list s
  /\ index_valid s'.
Proof.
  intros Hv Hi. pose proof Hv as Hv'.
  unfold index_valid in Hv'. rewrite Hi in Hv'.
  assert (Hval : index_valid (state_of (_load_next_email fs s)))
    by apply (run_valid fs LoadNext s Hv).
  unfold _load_next_email in *. rewrite Hi in *.
  destruct (Z.ltb_spec i (len (_get_current_file_list s) - 1)) as [L|L].
  - destruct (load_email_by_index_state fs (i + 1) s) as (Hh & Hs & Hm & Hc).
    assert (G : 0 <= i + 1 < len (_get_current_file_list s)) by lia.
    apply out_of_range_guard in G. rewrite G in Hc.
    repeat split; [|now apply file_list_frame|exact Hval].
    cbv zeta. rewrite Hc. f_equal. lia.
  - simpl. repeat split; [|exact Hval]. rewrite Hi. f_equal. lia.
Qed.

Lemma previous_moves fs s i :
  index_valid s -> current_index s = Some i ->
  let s' := state_of (_load_previous_email fs s) in
  current_index s' = Some (Z.max (i - 1) 0)
  /\ _get_current_file_list s' = _get_current_file_list s
  /\ index_valid s'.
Proof.
  intros Hv Hi. pose proof Hv as Hv'.
  unfold index_valid in Hv'. rewrite Hi in Hv'.
  assert (Hval : index_valid (state_of (_load_previous_email fs s)))
    by apply (run_valid fs LoadPrevious s Hv).
  unfold _load_previous_email in *. rewrite Hi in *.
  rewrite Z.gtb_ltb in *.
  destruct (Z.ltb_spec 0 i) as [L|L].
  - destruct (load_email_by_index_state fs (i - 1) s) as (Hh & Hs & Hm & Hc).
    assert (G : 0 <= i - 1 < len (_get_current_file_list s)) by lia.
    apply out_of_range_guard in G. rewrite G in Hc.
    repeat split; [|now apply file_list_frame|exact Hval].
    cbv zeta. rewrite Hc. f_equal. lia.
  - simpl. repeat split; [|exact Hval]. rewrite Hi. f_equal. lia.
Qed.

(** X7: from a valid position that is not the last, next followed by
    previous comes back to the same index; from one that is not the first,
    previous followed by next does.  The disk may differ between the two
    clicks and reads may fail. *)
Theorem next_previous_return fs1 fs2 s i :
  index_valid s -> current_index s = Some i ->
  (i < len (_get_current_file_list s) - 1 ->
   current_index
     (state_of (_load_previous_email fs2
                  (state_of (_load_next_email fs1 s)))) = Some i)
  /\ (0 < i ->
      current_index
        (state_of (_load_next_email fs2
                     (state_of (_load_previous_email fs1 s)))) = Some i).
Proof.
  intros Hv Hi. pose proof Hv as Hr.
  unfold index_valid in Hr. rewrite Hi in Hr.
  split; intros H.
  - destruct (next_moves fs1 s i Hv Hi) as (Hc & Hl & Hv1).
    destruct (previous_moves fs2 _ _ Hv1 Hc) as (Hc2 & _).
    rewrite Hc2. f_equal. lia.
  - destruct (previous_moves fs1 s i Hv Hi) as (Hc & Hl & Hv1).
    destruct (next_moves fs2 _ _ Hv1 Hc) as (Hc2 & _).
    rewrite Hc2, Hl. f_equal. lia.
Qed.

Lemma next_previous_return_witness :
  let s := state_of (_load_email_by_index disk 1 viewer) in
  current_index
    (state_of (_load_previous_email disk
                 (state_of (_load_next_email disk_readable s)))) = Some 1
  /\ current_index
       (state_of (_load_next_email disk
                    (state_of (_load_previous_email disk_readable s))))
     = Some 1.
Proof.
  cbv zeta.
  destruct (next_previous_return disk_readable disk
              (state_of (_load_email_by_index disk 1 viewer)) 1) as [H1 H2].
  - vm_compute. split; [discriminate|reflexivity].
  - reflexivity.
  - split; [apply H1; vm_compute; reflexivity|apply H2; lia].
Defined.

Lemma repeat_next_moves fs k : forall s i,
  index_valid s -> current_index s = Some i ->
  current_index (repeat_next fs k s)
  = Some (Z.min (i + Z.of_nat k) (len (_get_current_file_list s) - 1))
  /\ _get_current_file_list (repeat_next fs k s) = _get_current_file_list s.
Proof.
  induction k as [|k IH]; intros s i Hv Hi.
  - simpl. split; [|reflexivity]. rewrite Hi. f_equal.
    unfold index_valid in Hv. rewrite Hi in Hv. lia.
  - destruct (next_moves fs s i Hv Hi) as (Hc & Hl & Hv1).
    destruct (IH _ _ Hv1 Hc) as [Hc2 Hl2].
    cbn [repeat_next]. rewrite Hc2, Hl2, Hl. split; [|reflexivity].
    f_equal. unfold index_valid in Hv. rewrite Hi in Hv. lia.
Qed.

Lemma repeat_previous_moves fs k : forall s i,
  index_valid s -> current_index s = Some i ->
  current_index (repeat_previous fs k s) = Some (Z.max (i - Z.of_nat k) 0).
Proof.
  induction k as [|k IH]; intros s i Hv Hi.
  - simpl. rewrite Hi. f_equal.
    unfold index_valid in Hv. rewrite Hi in Hv. lia.
  - destruct (previous_moves fs s i Hv Hi) as (Hc & Hl & Hv1).
    cbn [repeat_previous]. rewrite (IH _ _ Hv1 Hc). f_equal.
    unfold index_valid in Hv. rewrite Hi in Hv. lia.
Qed.

(** X8: from a valid position [i], [k] clicks on next lead to index
    [min (i + k) (n - 1)] and [k] clicks on previous to [max (i - k) 0]:
    every mail of the list can be walked to, and the walk stops at either
    end, whether or not the mails on the way can be read. *)
Theorem repeated_steps_reach fs k s i :
  index_valid s -> current_index s = Some i ->
  current_index (repeat_next fs k s)
  = Some (Z.min (i + Z.of_nat k) (len (_get_current_file_list s) - 1))
  /\ current_index (repeat_previous fs k s)
     = Some (Z.max (i - Z.of_nat k) 0).
Proof.
  intros Hv Hi. split.
  - now apply repeat_next_moves.
  - now apply repeat_previous_moves.
Qed.

Lemma repeated_steps_reach_witness :
  let s := state_of (_load_email_by_index disk 1 viewer) in
  current_index (repeat_next disk 5 s)
  = Some (Z.min (1 + Z.of_nat 5) (len (_get_current_file_list s) - 1))
  /\ current_index (repeat_previous disk 5 s)
     = Some (Z.max (1 - Z.of_nat 5) 0).
Proof.
  cbv zeta.
  apply (repeated_steps_reach disk 5
           (state_of (_load_email_by_index disk 1 viewer)) 1).
  - vm_compute. split; [discriminate|reflexivity].
  - reflexivity.
Defined.

(** X9: right after a mode switch the previous and the next handler do
    nothing, whatever was shown before the switch: stepping only resumes
    once a mail of the new mode has been loaded. *)
Theorem steps_after_switch_do_nothing fs s :
  let s' := state_of (_toggle_mode s) in
  _load_previous_email fs s' = Returned s'
  /\ _load_next_email fs s' = Returned s'.
Proof. split; reflexivity. Qed.

(** ** The catalog: how ties are ordered, and the key of a name *)

Lemma key_lt_not_eqb a k : key_lt a k = true -> key_eqb a k = false.
Proof.
  destruct a, k; simpl; try discriminate; auto.
  intros H. apply Z.ltb_lt in H. apply Z.eqb_neq. lia.
Qed.

Lemma filter_insert_same_key {A : Type} (f : A -> key) k x l :
  key_eqb (f x) k = true ->
  filter (fun y => key_eqb (f y) k) (insert f x l)
  = x :: filter (fun y => key_eqb (f y) k) l.
Proof.
  intros Hx.
  assert (Hk : forall a, key_lt a (f x) = true -> key_eqb a k = false).
  { intros a Ha. destruct (f x), k, a; simpl in *; try discriminate; auto.
    apply Z.eqb_eq in Hx. apply Z.ltb_lt in Ha. apply Z.eqb_neq. lia. }
  induction l as [|y l IH]; simpl.
  - now rewrite Hx.
  - destruct (key_lt (f y) (f x)) eqn:E; simpl.
    + rewrite (Hk _ E). exact IH.
    + now rewrite Hx.
Qed.

Lemma sorted_stable {A : Type} (f : A -> key) k l :
  filter (fun y => key_eqb (f y) k) (sorted f l)
  = filter (fun y => key_eqb (f y) k) l.
Proof.
  induction l as [|x l IH]; simpl; auto.
  destruct (key_eqb (f x) k) eqn:E.
  - rewrite filter_insert_same_key by exact E. now rewrite IH.
  - rewrite filter_insert_out by exact E. exact IH.
Qed.

(** X10: the catalog sort is stable: whatever strings [int] accepts, for
    every key, be it a number or the key of the unparsable names, the
    files of a category that have this key stand in the returned list in
    the order in which they were discovered (so [1.txt] and [01.txt], or
    two [7.txt] in different sub-directories, keep their discovery
    order). *)
Theorem load_email_files_stable int fs hd sd h s k :
  load_email_files int fs hd sd = inr (h, s) ->
  exists rawh raws,
    rglob_txt fs hd = inr rawh /\ rglob_txt fs sd = inr raws
    /\ filter (fun p => key_eqb (sort_key int p) k) h
       = filter (fun p => key_eqb (sort_key int p) k) rawh
    /\ filter (fun p => key_eqb (sort_key int p) k) s
       = filter (fun p => key_eqb (sort_key int p) k) raws.
Proof.
  rewrite load_email_files_cases.
  destruct (rglob_txt fs hd) as [e|rawh]; [discriminate|].
  destruct (rglob_txt fs sd) as [e|raws]; [discriminate|].
  intros [= <- <-]. exists rawh, raws.
  repeat split; apply sorted_stable.
Qed.

Lemma load_email_files_stable_witness :
  exists rawh raws,
    rglob_txt disk ham_dir = inr rawh /\ rglob_txt disk spam_dir = inr raws
    /\ filter (fun p => key_eqb (sort_key int_ascii p) Inf)
         [["data"; "ham"; "1.txt"]; ["data"; "ham"; "more"; "2.txt"];
          ["data"; "ham"; "3.txt"]; ["data"; "ham"; "abc.txt"]]
       = filter (fun p => key_eqb (sort_key int_ascii p) Inf) rawh
    /\ filter (fun p => key_eqb (sort_key int_ascii p) Inf) []
       = filter (fun p => key_eqb (sort_key int_ascii p) Inf) raws.
Proof.
  apply (load_email_files_stable int_ascii disk ham_dir spam_dir).
  vm_compute. reflexivity.
Defined.

Example equal_numbers_keep_discovery_order :
  sorted (sort_key int_ascii)
    [["b"; "7.txt"]; ["01.txt"]; ["a"; "7.txt"]; ["1.txt"]]
  = [["01.txt"]; ["1.txt"]; ["b"; "7.txt"]; ["a"; "7.txt"]].
Proof. vm_compute. reflexivity. Qed.

(** *** Strings *)

Lemma substring_0_0 s : substring 0 0 s = "".
Proof. now destruct s. Qed.

Lemma substring_0_app a b : substring 0 (String.length a) (a ++ b) = a.
Proof.
  induction a as [|c a IH]; simpl; [apply substring_0_0|now rewrite IH].
Qed.

Lemma length_app a b :
  String.length (a ++ b) = (String.length a + String.length b)%nat.
Proof. induction a as [|c a IH]; simpl; auto. Qed.

Lemma rfind_app c a b :
  rfind c (a ++ b)
  = match rfind c b with
    | Some i => Some (String.length a + i)%nat
    | None => rfind c a
    end.
Proof.
  induction a as [|x a IH]; simpl.
  - now destruct (rfind c b).
  - rewrite IH. now destruct (rfind c b).
Qed.

(** The stem of a name that ends in [.txt] is the name without it. *)
Lemma stem_txt p base :
  name p = base ++ ".txt" -> base <> "" -> stem p = base.
Proof.
  intros Hn Hb. unfold stem. rewrite Hn, rfind_app. simpl rfind.
  rewrite length_app. simpl String.length.
  destruct (String.length base) as [|k] eqn:L.
  - destruct base; [congruence|discriminate].
  - replace ((0 <? S k + 0) && (S k + 0 <? S k + 4 - 1))%nat with true.
    + rewrite Nat.add_0_r, <- L. apply substring_0_app.
    + symmetry. apply andb_true_iff.
      split; apply Nat.ltb_lt; lia.
Qed.

(** X11: the sort key of a file is read from its name without the
    ending: for a path, in whatever directory, whose name is a non-empty
    [base] followed by [.txt], [sort_key] is the integer [int] reads in
    [base], and infinity when [int] refuses [base]. *)
Theorem sort_key_of_txt_name int p base :
  name p = base ++ ".txt" -> base <> "" ->
  sort_key int p = match int base with Some n => Int n | None => Inf end.
Proof.
  intros Hn Hb. unfold sort_key. now rewrite (stem_txt p base Hn Hb).
Qed.

Lemma sort_key_of_txt_name_witness :
  sort_key int_ascii ["data"; "ham"; "more"; "2.txt"]
  = match int_ascii "2" with Some n => Int n | None => Inf end.
Proof.
  apply (sort_key_of_txt_name int_ascii ["data"; "ham"; "more"; "2.txt"] "2").
  - reflexivity.
  - discriminate.
Defined.

Example sort_key_examples :
  map (sort_key int_ascii)
    [["123.txt"]; ["d"; "-4.txt"]; ["007.txt"]; ["1_000.txt"];
     [" 5 .txt"]; ["abc.txt"]; ["1.5.txt"]; [".txt"]; ["12"]]
  = [Int 123; Int (-4); Int 7; Int 1000; Int 5; Inf; Inf; Inf; Int 12].
Proof. vm_compute. reflexivity. Qed.

(** ** Reads that fail, and what the buttons promise *)

(** X13: when the file at an index of the active list cannot be read
    (missing by now, a directory, no permission), the indexed load still
    returns: the index is the requested one, the output area holds the one
    line [Error reading file: ...] with the text of the error in place of
    whatever was shown, and the label, both navigation buttons, the mode
    and the lists are as before the call. *)
Theorem load_email_by_index_on_read_error fs i s p e :
  0 <= i < len (_get_current_file_list s) ->
  nth_error (_get_current_file_list s) (Z.to_nat i) = Some p ->
  open_read fs p = inl e ->
  _load_email_by_index fs i s
  = Returned
      (set_output ["Error reading file: " ++ str_exn e]
         (set_current_index (Some i) s)).
Proof.
  intros Hi Hp He. unfold _load_email_by_index.
  apply out_of_range_guard in Hi. rewrite Hi, Hp, He. reflexivity.
Qed.

Lemma load_email_by_index_on_read_error_witness :
  _load_email_by_index disk 1 viewer
  = Returned
      (set_output ["Error reading file: "
                   ++ str_exn (OSError "Permission denied")]
         (set_current_index (Some 1) viewer)).
Proof.
  apply (load_email_by_index_on_read_error disk 1 viewer
           ["data"; "ham"; "more"; "2.txt"] (OSError "Permission denied")).
  - vm_compute. split; [discriminate|reflexivity].
  - reflexivity.
  - reflexivity.
Defined.

(** A file that was catalogued and is gone when it is loaded. *)
Example load_removed_file :
  let s := __init__ [["data"; "ham"; "9.txt"]] [] in
  _load_email_by_index disk 0 s
  = Returned
      (set_output
         ["Error reading file: [Errno 2] No such file or directory: 'data/ham/9.txt'"]
         (set_current_index (Some 0) s)).
Proof. reflexivity. Qed.

(** X14: after a load whose read succeeded, the two navigation buttons
    tell exactly what their handlers will do: an enabled button moves the
    index by one, a disabled button belongs to a handler that changes
    nothing. *)
Theorem buttons_match_handlers fs fs2 i s p content :
  0 <= i < len (_get_current_file_list s) ->
  nth_error (_get_current_file_list s) (Z.to_nat i) = Some p ->
  open_read fs p = inr content ->
  let s' := state_of (_load_email_by_index fs i s) in
  (if has_previous s'
   then current_index (state_of (_load_previous_email fs2 s'))
        = Some (i - 1)
   else _load_previous_email fs2 s' = Returned s')
  /\ (if has_next s'
      then current_index (state_of (_load_next_email fs2 s')) = Some (i + 1)
      else _load_next_email fs2 s' = Returned s').
Proof.
  intros Hi Hp R s'.
  assert (Hc : current_index s' = Some i
               /\ _get_current_file_list s' = _get_current_file_list s
               /\ has_previous s' = negb (i =? 0)
               /\ has_next s'
                  = negb (i =? len (_get_current_file_list s) - 1)).
  { subst s'. unfold _load_email_by_index.
    apply out_of_range_guard in Hi. rewrite Hi, Hp, R.
    repeat split. }
  destruct Hc as (Hc & Hl & Hprev & Hnext).
  rewrite Hprev, Hnext. split.
  - unfold _load_previous_email. rewrite Hc, Z.gtb_ltb.
    destruct (Z.eqb_spec i 0) as [->|Hne]; simpl negb; cbv iota.
    + reflexivity.
    + destruct (Z.ltb_spec 0 i); [|lia].
      destruct (load_email_by_index_state fs2 (i - 1) s') as (_ & _ & _ & Hx).
      rewrite Hx, Hl.
      assert (G : 0 <= i - 1 < len (_get_current_file_list s)) by lia.
      apply out_of_range_guard in G. now rewrite G.
  - unfold _load_next_email. rewrite Hc, Hl.
    destruct (Z.eqb_spec i (len (_get_current_file_list s) - 1)) as [E|Hne];
      simpl negb; cbv iota.
    + destruct (Z.ltb_spec i (len (_get_current_file_list s) - 1));
        [lia|reflexivity].
    + destruct (Z.ltb_spec i (len (_get_current_file_list s) - 1)); [|lia].
      destruct (load_email_by_index_state fs2 (i + 1) s') as (_ & _ & _ & Hx).
      rewrite Hx, Hl.
      assert (G : 0 <= i + 1 < len (_get_current_file_list s)) by lia.
      apply out_of_range_guard in G. now rewrite G.
Qed.

Lemma buttons_match_handlers_witness :
  let s' := state_of (_load_email_by_index disk 0 viewer) in
  (if has_previous s'
   then current_index (state_of (_load_previous_email disk s'))
        = Some (0 - 1)
   else _load_previous_email disk s' = Returned s')
  /\ (if has_next s'
      then current_index (state_of (_load_next_email disk s')) = Some (0 + 1)
      else _load_next_email disk s' = Returned s').
Proof.
  apply (buttons_match_handlers disk disk 0 viewer
           ["data"; "ham"; "1.txt"] "one").
  - vm_compute. split; [discriminate|reflexivity].
  - reflexivity.
  - reflexivity.
Defined.

(** X15: only the mode switch changes the mode: every load, by index, at
    random, previous or next, leaves it alone, read error and exception
    included. *)
Theorem run_mode fs o s :
  current_mode (state_of (run fs o s))
  = match o with
    | SwitchCategory => other_mode (current_mode s)
    | _ => current_mode s
    end.
Proof.
  destruct o as [|rnd|i| |]; simpl.
  - unfold _toggle_mode. now destruct (current_mode s).
  - unfold _load_random_email.
    destruct (randint rnd 0 (len (_get_current_file_list s) - 1)); simpl;
      [reflexivity|].
    now destruct (load_email_by_index_state fs z s) as (_ & _ & H & _).
  - now destruct (load_email_by_index_state fs i s) as (_ & _ & H & _).
  - unfold _load_previous_email.
    destruct (current_index s) as [i|]; [|reflexivity].
    destruct (i >? 0); [|reflexivity].
    now destruct (load_email_by_index_state fs (i - 1) s) as (_ & _ & H & _).
  - unfold _load_next_email.
    destruct (current_index s) as [i|]; [|reflexivity].
    destruct (i <? len (_get_current_file_list s) - 1); [|reflexivity].
    now destruct (load_email_by_index_state fs (i + 1) s) as (_ & _ & H & _).
Qed.
